(** * The reduce task of the MapReduce lab: [doReduce]

    A shallow embedding of [src/mapreduce/common_reduce.go] and the
    properties its specification states about it.

    Modelling decisions.
    - A file is the sequence of JSON values its bytes hold, each value
      classified by what [json.Decoder.Decode] does with it when the target is
      a [**KeyValue]: an object (with the fields [Key] and [Value] that are
      present), the literal [null], or text that makes [Decode] return an
      error.  The end of the sequence is [io.EOF], an error as well.
    - The file system, and the log of the calls of the reduce function, are
      threaded through the task as explicit state; a Go panic ends the task
      and leaves the state as it was when the panic was raised.
    - The reduce function is a total function of the key and the values.
      A write to the output that was opened succeeds: the task ignores the
      error [Encode] returns.
    - [reduceName] is defined in another file of the package: it is a
      parameter of the development.
    - The order in which [range] visits a Go map is unspecified: it is a
      parameter as well ([MapRange]), only known to enumerate the keys. *)

From Stdlib Require Import ZArith Lia DecimalString.
From stdpp Require Import base option list sorting gmap fin_maps strings.

Local Open Scope Z_scope.

(** ** Data model *)

(** [type KeyValue struct { Key string; Value string }] *)
Record KeyValue : Type := mkKeyValue { Key : string; Value : string }.

#[global] Instance KeyValue_eq_dec : EqDecision KeyValue.
Proof. solve_decision. Defined.

(** One JSON value of a file, as [Decode(&kv)] sees it. *)
Inductive entry : Type :=
| JObject (key value : option string)
    (* an object; [None] is a field the object does not have *)
| JNull
    (* the literal null *)
| JInvalid.
    (* anything [Decode] rejects: bad syntax, a truncated value, a value of
       another type *)

#[global] Instance entry_eq_dec : EqDecision entry.
Proof. solve_decision. Defined.

(** What [enc.Encode(KeyValue{k, v})] appends to a file. *)
Definition encode (kv : KeyValue) : entry :=
  JObject (Some (Key kv)) (Some (Value kv)).

(** A [*json.Decoder] over an open file: the values not yet consumed. *)
Abbreviation Decoder := (list entry).

(** The groups built in memory, [map[string][]string]. *)
Abbreviation Groups := (gmap string (list string)).

(** ** The file system *)

Record FileSys : Type := mkFileSys {
  files : gmap string (list entry);
    (* the regular files and their content *)
  unreadable : gset string;
    (* paths that [os.OpenFile(_, O_RDONLY, _)] refuses although a file may
       be there (permissions) *)
  unwritable : gset string
    (* paths that [os.OpenFile(_, O_CREATE|O_APPEND|O_WRONLY, _)] refuses
       (permissions, a missing directory, a directory of that name) *)
}.

(** What a reader finds in the file at [p]; nothing when there is no file. *)
Definition content (f : FileSys) (p : string) : list entry :=
  default [] (files f !! p).

(** The state of a task: the file system, and the calls of [reduceF] made so
    far, oldest first. *)
Record World : Type := mkWorld {
  fs : FileSys;
  calls : list (string * list string)
}.

(** ** Panics and the task monad *)

Inductive Panic : Type :=
| FailedToOpen (path : string)   (* [log.Panicf] of [doReduce] *)
| NilDereference                 (* a field or a method of a nil pointer *)
| IndexOutOfRange                (* [decoders[i]] outside the slice *)
| MakesliceLen.                  (* [make] with a negative length *)

Inductive Result (A : Type) : Type :=
| Returned (a : A)
| Panicked (p : Panic).
Arguments Returned {A} a.
Arguments Panicked {A} p.

Definition Task (A : Type) : Type := World → Result A * World.

#[global] Instance Task_ret : MRet Task := λ A a w, (Returned a, w).

#[global] Instance Task_bind : MBind Task := λ A B f m w,
  match m w with
  | (Returned a, w') => f a w'
  | (Panicked p, w') => (Panicked p, w')
  end.

Definition panic {A : Type} (p : Panic) : Task A := λ w, (Panicked p, w).

(** A computation that touches no state. *)
Definition pure {A : Type} (r : Result A) : Task A := λ w, (r, w).

(** ** The operations of [os] and [encoding/json] the task uses *)

(** [os.OpenFile(name, os.O_RDONLY, 0600)]: [None] is a non-nil [err].  The
    descriptor is modelled by the content of the file when it is opened:
    nothing writes to a file between the opening of the inputs and the last
    read from them. *)
Definition open_rdonly (f : FileSys) (name : string) : option (list entry) :=
  if decide (name ∈ unreadable f) then None else files f !! name.

Definition OpenFile_RDONLY (name : string) : Task (option (list entry)) := λ w,
  (Returned (open_rdonly (fs w) name), w).

(** [os.OpenFile(name, os.O_CREATE|os.O_APPEND|os.O_WRONLY, 0600)]: an absent
    file is created empty, an existing one is left as it is.  The descriptor
    is modelled by the path. *)
Definition OpenFile_APPEND (name : string) : Task (option string) := λ w,
  if decide (name ∈ unwritable (fs w)) then (Returned None, w)
  else
    (Returned (Some name),
     mkWorld
       (mkFileSys (<[name := content (fs w) name]> (files (fs w)))
          (unreadable (fs w)) (unwritable (fs w)))
       (calls w)).

(** [json.NewDecoder(fd)] *)
Definition NewDecoder (fd : list entry) : Decoder := fd.

(** [Decode(&kv)] on the next value [e] of the stream, [kv] being a
    [*KeyValue]: [None] is a non-nil [err]; otherwise the new [kv].  An
    object is stored in the struct [kv] points to, a fresh zero struct when
    [kv] is nil, and only the fields the object has are assigned; null makes
    [kv] nil. *)
Definition Decode (e : entry) (kv : option KeyValue) : option (option KeyValue) :=
  match e with
  | JInvalid => None
  | JNull => Some None
  | JObject k v =>
      let cur := default (mkKeyValue "" "") kv in
      Some (Some (mkKeyValue (default (Key cur) k) (default (Value cur) v)))
  end.

(** [encoder.Encode(kv)] on the descriptor [fd], opened for appending. *)
Definition Encode (fd : string) (kv : KeyValue) : Task unit := λ w,
  (Returned (),
   mkWorld
     (mkFileSys (<[fd := content (fs w) fd ++ [encode kv]]> (files (fs w)))
        (unreadable (fs w)) (unwritable (fs w)))
     (calls w)).

(** [sort.Strings]: ascending order of [<] on Go strings, which compares
    byte by byte.  The sorted arrangement of a list is unique, so the
    algorithm is immaterial. *)
Definition sort_Strings (keys : list string) : list string :=
  merge_sort String.le keys.

(** The order in which [for k := range kvs] visits the keys. *)
Class MapRange : Type := {
  map_range : Groups → list string;
  map_range_perm : ∀ m : Groups, map_range m ≡ₚ (map_to_list m).*1
}.

(** ** doReduce *)

Section doReduce.

(** [reduceName(jobName, mapTask, reduceTask)] *)
Variable reduceName : string → Z → Z → string.
Context {range : MapRange}.

Variable jobName : string.
Variable reduceTask : Z.
Variable outFile : string.
Variable nMap : Z.
Variable reduceF : string → list string → string.

(** [make([]*json.Decoder, nMap)] *)
Definition make_decoders : Task (list (option Decoder)) :=
  if decide (nMap < 0) then panic MakesliceLen
  else mret (replicate (Z.to_nat nMap) None).

(** The first loop, [n] iterations from index [i]. *)
Fixpoint open_loop (n : nat) (i : Z) (decoders : list (option Decoder))
  : Task (list (option Decoder)) :=
  match n with
  | O => mret decoders
  | S n' =>
      let fileName := reduceName jobName i reduceTask in
      fd ← OpenFile_RDONLY fileName;
      match fd with
      | None => panic (FailedToOpen fileName)
      | Some fd =>
          if decide (Z.to_nat i < length decoders)%nat
          then open_loop n' (i + 1)
                 (<[Z.to_nat i := Some (NewDecoder fd)]> decoders)
          else panic IndexOutOfRange    (* [decoders[i] = ...] out of range *)
      end
  end.

(** [kvs[kv.Key] = append(kvs[kv.Key], kv.Value)] *)
Definition add_value (kv : KeyValue) (kvs : Groups) : Groups :=
  <[Key kv := default [] (kvs !! Key kv) ++ [Value kv]]> kvs.

(** The inner [for] of the second loop on one decoder; [kv] is the pointer
    declared before it. *)
Fixpoint decode_loop (d : Decoder) (kv : option KeyValue) (kvs : Groups)
  : Result Groups :=
  match d with
  | [] => Returned kvs                        (* io.EOF: break *)
  | e :: d' =>
      match Decode e kv with
      | None => Returned kvs                  (* err != nil: break *)
      | Some None => Panicked NilDereference  (* kv.Key with kv == nil *)
      | Some (Some r) => decode_loop d' (Some r) (add_value r kvs)
      end
  end.

(** The second loop, [n] iterations from index [i]. *)
Fixpoint read_loop (n : nat) (i : Z) (decoders : list (option Decoder))
  (kvs : Groups) : Result Groups :=
  match n with
  | O => Returned kvs
  | S n' =>
      match decoders !! Z.to_nat i with
      | None => Panicked IndexOutOfRange
      | Some None => Panicked NilDereference
      | Some (Some d) =>
          match decode_loop d None kvs with
          | Returned kvs' => read_loop n' (i + 1) decoders kvs'
          | Panicked p => Panicked p
          end
      end
  end.

(** [reduceF(key, values)], the call recorded. *)
Definition call_reduceF (key : string) (values : list string) : Task string :=
  λ w, (Returned (reduceF key values),
        mkWorld (fs w) (calls w ++ [(key, values)])).

(** The last loop. *)
Fixpoint write_loop (fd : string) (keys : list string) (kvs : Groups)
  : Task unit :=
  match keys with
  | [] => mret ()
  | key :: keys' =>
      v ← call_reduceF key (default [] (kvs !! key));
      _ ← Encode fd (mkKeyValue key v);
      write_loop fd keys' kvs
  end.

Definition doReduce : Task unit :=
  decoders ← make_decoders;
  decoders ← open_loop (Z.to_nat nMap) 0 decoders;
  kvs ← pure (read_loop (Z.to_nat nMap) 0 decoders ∅);
  let keys := sort_Strings (map_range kvs) in
  fd ← OpenFile_APPEND outFile;
  match fd with
  | None => panic (FailedToOpen outFile)
  | Some fd => write_loop fd keys kvs
  end.

End doReduce.

(** ** The specification's vocabulary *)

(** The occurrences of key [k] in a sequence of records, in order. *)
Definition values_of (k : string) (recs : list KeyValue) : list string :=
  Value <$> filter (λ r, Key r = k) recs.

(** The distinct keys of a sequence of records, ascending. *)
Definition keys_of (recs : list KeyValue) : list string :=
  sort_Strings (remove_dups (Key <$> recs)).

(** The groups after the records [recs] were added to [kvs], one by one. *)
Definition group (kvs : Groups) (recs : list KeyValue) : Groups :=
  foldl (λ m r, add_value r m) kvs recs.

(** [Decode] returns an error at the head of [tl]: the stream is exhausted,
    or its next value is not decodable. *)
Definition fails (tl : list entry) : Prop :=
  tl = [] ∨ ∃ rest, tl = JInvalid :: rest.

(** A stream that holds records up to its end or to the first failure. *)
Definition records_then_failure (d : Decoder) (recs : list KeyValue) : Prop :=
  ∃ tl, d = (encode <$> recs) ++ tl ∧ fails tl.

(** The values of a stream that precede its first undecodable one. *)
Fixpoint before_failure (d : list entry) : list entry :=
  match d with
  | [] => []
  | JInvalid :: _ => []
  | e :: d' => e :: before_failure d'
  end.

(** Every group has a value. *)
Definition all_nonempty (kvs : Groups) : Prop :=
  ∀ (k : string) (vs : list string), kvs !! k = Some vs → vs ≠ [].

(** Strictly ascending, byte-wise. *)
Definition string_lt (s t : string) : Prop := String.ltb s t = true.

#[global] Instance string_lt_dec : RelDecision string_lt.
Proof. intros s t. unfold string_lt. apply _. Defined.

(** ** Two iteration orders *)

#[global, refine] Instance range_forward : MapRange :=
  {| map_range m := (map_to_list m).*1 |}.
Proof. done. Defined.

#[global, refine] Instance range_backward : MapRange :=
  {| map_range m := reverse (map_to_list m).*1 |}.
Proof. intros m. apply reverse_Permutation. Defined.

(** The reduce function of Scenario A: the decimal sum of the values. *)
Definition atoi (s : string) : Z :=
  match NilEmpty.int_of_string s with
  | Some i => Z.of_int i
  | None => 0
  end.

Definition itoa (z : Z) : string := NilEmpty.string_of_int (Z.to_int z).

Definition sum_as_text (key : string) (values : list string) : string :=
  itoa (foldr Z.add 0 (atoi <$> values)).

(** ** What the task does, as one case analysis *)

Section run.

Variable reduceName : string → Z → Z → string.
Context {range : MapRange}.
Variable jobName : string.
Variable reduceTask : Z.
Variable outFile : string.
Variable nMap : Z.
Variable reduceF : string → list string → string.

(** The path of the shard of map task [i], and what opening it gives. *)
Definition shard_name (i : nat) : string :=
  reduceName jobName (Z.of_nat i) reduceTask.

Definition shard_file (f : FileSys) (i : nat) : option (list entry) :=
  open_rdonly f (shard_name i).

(** The shards [j], ..., [j + n - 1] opened in this order: their streams,
    or the first path that does not open. *)
Fixpoint open_shards (f : FileSys) (j n : nat) : list Decoder + string :=
  match n with
  | O => inl []
  | S n' =>
      match shard_file f j with
      | None => inr (shard_name j)
      | Some d =>
          match open_shards f (S j) n' with
          | inl ds => inl (d :: ds)
          | inr p => inr p
          end
      end
  end.

(** The streams drained one after the other into the groups. *)
Fixpoint read_all (ds : list Decoder) (kvs : Groups) : Result Groups :=
  match ds with
  | [] => Returned kvs
  | d :: ds' =>
      match decode_loop d None kvs with
      | Returned kvs' => read_all ds' kvs'
      | Panicked p => Panicked p
      end
  end.

(** The records the last loop writes for the keys [keys], and the calls
    it makes. *)
Definition written (kvs : Groups) (keys : list string) : list KeyValue :=
  (λ k, mkKeyValue k (reduceF k (default [] (kvs !! k)))) <$> keys.

Definition called (kvs : Groups) (keys : list string)
  : list (string * list string) :=
  (λ k, (k, default [] (kvs !! k))) <$> keys.

(** The world after [recs] were appended to [outFile] and [cs] called. *)
Definition appended (w : World) (recs : list KeyValue)
  (cs : list (string * list string)) : World :=
  mkWorld
    (mkFileSys
       (<[outFile := content (fs w) outFile ++ (encode <$> recs)]>
          (files (fs w)))
       (unreadable (fs w)) (unwritable (fs w)))
    (calls w ++ cs).

(** The shards hold the records [shards], shard [i] those of [shards !! i]
    and nothing else. *)
Definition holds (f : FileSys) (shards : list (list KeyValue)) : Prop :=
  ∀ (i : nat) (recs : list KeyValue),
    shards !! i = Some recs → shard_file f i = Some (encode <$> recs).

(** The shards hold the records [shards], each followed by the end of the
    file or by something that does not decode. *)
Definition begins_with (f : FileSys) (shards : list (list KeyValue)) : Prop :=
  ∀ (i : nat) (recs : list KeyValue),
    shards !! i = Some recs →
    ∃ tl, shard_file f i = Some ((encode <$> recs) ++ tl) ∧ fails tl.

(** The output the specification asks for: one record per distinct key, in
    ascending order of the keys, the value being the reduction of the key's
    values; and the calls of the reduce function that produce it. *)
Definition reduced (recs : list KeyValue) : list KeyValue :=
  (λ k, mkKeyValue k (reduceF k (values_of k recs))) <$> keys_of recs.

Definition reduce_calls (recs : list KeyValue) : list (string * list string) :=
  (λ k, (k, values_of k recs)) <$> keys_of recs.

(** The task as one case analysis. *)
Definition run (w : World) : Result unit * World :=
  if decide (nMap < 0) then (Panicked MakesliceLen, w)
  else
    match open_shards (fs w) 0 (Z.to_nat nMap) with
    | inr p => (Panicked (FailedToOpen p), w)
    | inl ds =>
        match read_all ds ∅ with
        | Panicked p => (Panicked p, w)
        | Returned kvs =>
            if decide (outFile ∈ unwritable (fs w))
            then (Panicked (FailedToOpen outFile), w)
            else
              let keys := sort_Strings (map_range kvs) in
              (Returned (), appended w (written kvs keys) (called kvs keys))
        end
    end.

End run.

(** ** Concrete worlds

    A naming scheme for the runs at the end of the file, in the style of the lab's
    [reduceName]. *)
Definition mrtmp_name (jobName : string) (mapTask reduceTask : Z) : string :=
  "mrtmp." +:+ jobName +:+ "-" +:+ itoa mapTask +:+ "-" +:+ itoa reduceTask.

Definition shard0 : list KeyValue := [mkKeyValue "a" "1"; mkKeyValue "b" "2"].
Definition shard1 : list KeyValue := [mkKeyValue "a" "3"].

(** The two shards of Scenario A, and no other file. *)
Definition files_A : gmap string (list entry) :=
  <[mrtmp_name "job" 0 0 := encode <$> shard0]>
    (<[mrtmp_name "job" 1 0 := encode <$> shard1]> ∅).

Definition world_A : World := mkWorld (mkFileSys files_A ∅ ∅) [].

(** Shard 0 damaged after its two records; a further record follows the
    damage. *)
Definition files_damaged : gmap string (list entry) :=
  <[mrtmp_name "job" 0 0 :=
      (encode <$> shard0) ++ [JInvalid; encode (mkKeyValue "c" "7")]]> files_A.

Definition world_damaged : World := mkWorld (mkFileSys files_damaged ∅ ∅) [].

(** The same shards, in another world: one more file, a call already made. *)
Definition world_B : World :=
  mkWorld (mkFileSys (<["notes" := [JNull]]> files_A) ∅ ∅) [("z", ["0"])].

(** Shard 1 missing. *)
Definition world_missing : World :=
  mkWorld (mkFileSys (delete (mrtmp_name "job" 1 0) files_A) ∅ ∅) [].

(** The output path refused. *)
Definition world_locked : World :=
  mkWorld (mkFileSys files_A ∅ {["out"]}) [].

(** A null in shard 1, and a shard 0 whose second object has no [Value]. *)
Definition world_null : World :=
  mkWorld (mkFileSys (<[mrtmp_name "job" 1 0 := [JNull]]> files_A) ∅ ∅) [].

Definition world_partial : World :=
  mkWorld
    (mkFileSys
       (<[mrtmp_name "job" 0 0 :=
            [encode (mkKeyValue "a" "1"); JObject (Some "b") None]]> files_A)
       ∅ ∅) [].

(** Three more jobs: the records of Scenario A with an empty shard between
    the two, the two shards of Scenario A exchanged, and two shards without
    a record. *)
Definition world_split : World :=
  mkWorld
    (mkFileSys
       (<[mrtmp_name "split" 0 0 := encode <$> shard0]>
          (<[mrtmp_name "split" 1 0 := []]>
             (<[mrtmp_name "split" 2 0 := encode <$> shard1]> ∅)))
       ∅ ∅) [].

Definition world_swapped : World :=
  mkWorld
    (mkFileSys
       (<[mrtmp_name "swap" 0 0 := encode <$> shard1]>
          (<[mrtmp_name "swap" 1 0 := encode <$> shard0]> ∅))
       ∅ ∅) [].

Definition world_empty : World :=
  mkWorld
    (mkFileSys
       (<[mrtmp_name "none" 0 0 := []]> (<[mrtmp_name "none" 1 0 := []]> ∅))
       ∅ ∅) [].

Definition run_A (w : World) : Result unit * World :=
  @doReduce mrtmp_name range_forward "job" 0 "out" 2 sum_as_text w.

(** ** Decoding and grouping *)

Section decoding.

Lemma Decode_encode (r : KeyValue) (kv : option KeyValue) :
  Decode (encode r) kv = Some (Some r).
Proof. by destruct r. Qed.

Lemma decode_loop_records (recs : list KeyValue) (tl : list entry) :
  fails tl →
  ∀ (kv : option KeyValue) (kvs : Groups),
    decode_loop ((encode <$> recs) ++ tl) kv kvs = Returned (group kvs recs).
Proof.
  intros Htl. induction recs as [|r recs IH]; intros kv kvs.
  - destruct Htl as [->|[rest ->]]; done.
  - cbn [fmap list_fmap app decode_loop].
    change (list_fmap KeyValue entry encode recs) with (encode <$> recs).
    rewrite Decode_encode. apply IH.
Qed.

Lemma decode_loop_failure (d rest : list entry) :
  ∀ (kv : option KeyValue) (kvs : Groups),
    decode_loop (d ++ JInvalid :: rest) kv kvs = decode_loop d kv kvs.
Proof.
  induction d as [|e d IH]; intros kv kvs; simpl; [done|].
  destruct (Decode e kv) as [[r|]|]; auto.
Qed.

Lemma decode_loop_null_free (d : list entry) :
  JNull ∉ before_failure d →
  ∀ (kv : option KeyValue) (kvs : Groups),
    ∃ kvs', decode_loop d kv kvs = Returned kvs'.
Proof.
  induction d as [|e d IH]; intros Hnull kv kvs; simpl; [eauto|].
  destruct e as [k v| |]; simpl in *.
  - apply IH. intros Hin. apply Hnull. by right.
  - destruct Hnull. left.
  - eauto.
Qed.

Lemma values_of_cons (k : string) (r : KeyValue) (recs : list KeyValue) :
  values_of k (r :: recs) =
  if decide (Key r = k) then Value r :: values_of k recs else values_of k recs.
Proof. unfold values_of. rewrite filter_cons. by case_decide. Qed.

Lemma values_of_app (k : string) (recs1 recs2 : list KeyValue) :
  values_of k (recs1 ++ recs2) = values_of k recs1 ++ values_of k recs2.
Proof. unfold values_of. by rewrite filter_app, fmap_app. Qed.

Lemma values_of_concat (k : string) (shards : list (list KeyValue)) :
  values_of k (concat shards) = concat (values_of k <$> shards).
Proof.
  induction shards as [|recs shards IH]; simpl; [done|].
  by rewrite values_of_app, IH.
Qed.

Lemma elem_of_concat {A : Type} (x : A) (ls : list (list A)) :
  x ∈ concat ls ↔ ∃ l, l ∈ ls ∧ x ∈ l.
Proof.
  induction ls as [|l ls IH]; simpl.
  - split; [by intros ?%elem_of_nil|by intros (l & ?%elem_of_nil & _)].
  - rewrite elem_of_app, IH. split.
    + intros [Hx|(l' & Hl' & Hx)].
      * exists l. split; [left|done].
      * exists l'. split; [by right|done].
    + intros (l' & [->|Hl']%elem_of_cons & Hx); [by left|right; eauto].
Qed.

Lemma values_of_nil (k : string) (recs : list KeyValue) :
  values_of k recs = [] ↔ k ∉ Key <$> recs.
Proof.
  induction recs as [|r recs IH]; simpl.
  - split; [by intros _ ?%elem_of_nil|done].
  - rewrite values_of_cons, not_elem_of_cons. case_decide; subst.
    + split; [done|]. by intros [? _].
    + rewrite IH. split; [by split|by intros [_ ?]].
Qed.

Lemma lookup_group (recs : list KeyValue) :
  ∀ (kvs : Groups) (k : string),
    group kvs recs !! k =
    if decide (values_of k recs = []) then kvs !! k
    else Some (default [] (kvs !! k) ++ values_of k recs).
Proof.
  induction recs as [|r recs IH]; intros kvs k; [done|].
  change (group kvs (r :: recs)) with (group (add_value r kvs) recs).
  rewrite IH, values_of_cons. unfold add_value.
  destruct (decide (Key r = k)) as [->|Hne].
  - rewrite lookup_insert_eq. simpl.
    repeat case_decide; try done.
    + by rewrite H.
    + by rewrite <- app_assoc.
  - rewrite lookup_insert_ne by done. done.
Qed.

Lemma lookup_group_empty (recs : list KeyValue) (k : string) :
  default [] (group ∅ recs !! k) = values_of k recs.
Proof.
  rewrite lookup_group, lookup_empty. case_decide; simpl; [|done].
  by rewrite H.
Qed.

Lemma elem_of_group_empty (recs : list KeyValue) (k : string) :
  is_Some (group ∅ recs !! k) ↔ k ∈ Key <$> recs.
Proof.
  rewrite lookup_group, lookup_empty. case_decide as Hv.
  - apply values_of_nil in Hv. split; [by intros [? ?]|done].
  - split; [|eauto]. intros _. destruct (decide (k ∈ Key <$> recs)); [done|].
    by apply values_of_nil in n.
Qed.

Lemma group_app (kvs : Groups) (recs1 recs2 : list KeyValue) :
  group kvs (recs1 ++ recs2) = group (group kvs recs1) recs2.
Proof. apply foldl_app. Qed.

End decoding.

(** ** Sorting the keys *)

Section sorting.

Lemma sort_Strings_sorted (l : list string) :
  StronglySorted String.le (sort_Strings l).
Proof. apply StronglySorted_merge_sort; apply _. Qed.

Lemma sort_Strings_perm (l : list string) : sort_Strings l ≡ₚ l.
Proof. apply merge_sort_Permutation. Qed.

Lemma sort_Strings_unique (l1 l2 : list string) :
  l1 ≡ₚ l2 → sort_Strings l1 = sort_Strings l2.
Proof.
  intros Hp. apply (StronglySorted_unique String.le).
  - apply sort_Strings_sorted.
  - apply sort_Strings_sorted.
  - by rewrite !sort_Strings_perm.
Qed.

Lemma elem_of_sort_Strings (l : list string) (k : string) :
  k ∈ sort_Strings l ↔ k ∈ l.
Proof. by rewrite sort_Strings_perm. Qed.

Lemma NoDup_sort_Strings (l : list string) : NoDup l → NoDup (sort_Strings l).
Proof. by rewrite sort_Strings_perm. Qed.

Lemma string_le_lt (s t : string) : String.le s t → s ≠ t → string_lt s t.
Proof.
  unfold String.le, string_lt, String.leb, String.ltb. intros Hle Hne.
  destruct (String.compare s t) eqn:Hc; try done.
  by apply String.compare_eq_iff in Hc.
Qed.

Lemma strictly_sorted (l : list string) :
  StronglySorted String.le l → NoDup l → Sorted string_lt l.
Proof.
  induction 1 as [|x l Hl IH Hx]; intros Hnd; [constructor|].
  apply NoDup_cons in Hnd as [Hnotin Hnd].
  constructor; [auto|].
  destruct l as [|y l']; constructor.
  apply string_le_lt.
  - by apply Forall_cons in Hx as [? _].
  - intros ->. apply Hnotin. left.
Qed.

Lemma sort_Strings_strict (l : list string) :
  NoDup l → Sorted string_lt (sort_Strings l).
Proof.
  intros Hnd. apply strictly_sorted.
  - apply sort_Strings_sorted.
  - by apply NoDup_sort_Strings.
Qed.

Lemma NoDup_map_range `{MapRange} (kvs : Groups) : NoDup (map_range kvs).
Proof. rewrite map_range_perm. apply NoDup_fst_map_to_list. Qed.

Lemma elem_of_map_range `{MapRange} (kvs : Groups) (k : string) :
  k ∈ map_range kvs ↔ is_Some (kvs !! k).
Proof.
  rewrite map_range_perm, list_elem_of_fmap. split.
  - intros [[k' v] [-> Hkv]]. apply elem_of_map_to_list in Hkv. eauto.
  - intros [v Hv]. exists (k, v). split; [done|]. by apply elem_of_map_to_list.
Qed.

Lemma NoDup_keys_of (recs : list KeyValue) : NoDup (keys_of recs).
Proof. apply NoDup_sort_Strings, NoDup_remove_dups. Qed.

Lemma elem_of_keys_of (recs : list KeyValue) (k : string) :
  k ∈ keys_of recs ↔ k ∈ Key <$> recs.
Proof. unfold keys_of. by rewrite elem_of_sort_Strings, elem_of_remove_dups. Qed.

Lemma keys_of_strict (recs : list KeyValue) : Sorted string_lt (keys_of recs).
Proof. apply sort_Strings_strict, NoDup_remove_dups. Qed.

(** Whatever the order of the iteration over the groups of [recs], the
    sorted keys are [keys_of recs]. *)
Lemma sorted_range_group `{MapRange} (recs : list KeyValue) :
  sort_Strings (map_range (group ∅ recs)) = keys_of recs.
Proof.
  apply sort_Strings_unique, NoDup_Permutation.
  - apply NoDup_map_range.
  - apply NoDup_remove_dups.
  - intros k. by rewrite elem_of_map_range, elem_of_group_empty,
      elem_of_remove_dups.
Qed.

(** Two iteration orders give the same sorted keys. *)
Lemma sorted_range_irrelevant (range1 range2 : MapRange) (kvs : Groups) :
  sort_Strings (@map_range range1 kvs) = sort_Strings (@map_range range2 kvs).
Proof. apply sort_Strings_unique. by rewrite !map_range_perm. Qed.

End sorting.

(** ** The loops, one by one *)

Section run_facts.

(* Unfolding of the definitions that the abbreviations below shadow. *)
Ltac unfold_run := unfold run.
Ltac unfold_written := unfold written.
Ltac unfold_reduced := unfold reduced.
Ltac unfold_shard_file := unfold shard_file.

Variable reduceName : string → Z → Z → string.
Context {range : MapRange}.
Variable jobName : string.
Variable reduceTask : Z.
Variable outFile : string.
Variable nMap : Z.
Variable reduceF : string → list string → string.

Local Abbreviation shard_name := (shard_name reduceName jobName reduceTask).
Local Abbreviation shard_file := (shard_file reduceName jobName reduceTask).
Local Abbreviation open_shards := (open_shards reduceName jobName reduceTask).
Local Abbreviation written := (written reduceF).
Local Abbreviation appended := (appended outFile).
Local Abbreviation holds := (holds reduceName jobName reduceTask).
Local Abbreviation begins_with := (begins_with reduceName jobName reduceTask).
Local Abbreviation reduced := (reduced reduceF).
Local Abbreviation run :=
  (run reduceName jobName reduceTask outFile nMap reduceF).
Local Abbreviation doReduce :=
  (doReduce reduceName jobName reduceTask outFile nMap reduceF).

Lemma open_loop_shards (f : FileSys) (cs : list (string * list string)) :
  ∀ (n : nat) (pre : list Decoder),
    open_loop reduceName jobName reduceTask n (Z.of_nat (length pre))
      ((Some <$> pre) ++ replicate n None) (mkWorld f cs) =
    match open_shards f (length pre) n with
    | inl ds => (Returned (Some <$> (pre ++ ds)), mkWorld f cs)
    | inr p => (Panicked (FailedToOpen p), mkWorld f cs)
    end.
Proof.
  induction n as [|n IH]; intros pre; simpl.
  - by rewrite !app_nil_r.
  - unfold mbind, Task_bind, OpenFile_RDONLY, shard_file, shard_name; simpl.
    destruct (open_rdonly f _) as [d|]; [|done].
    rewrite Nat2Z.id.
    rewrite decide_True
      by (rewrite length_app, length_fmap; simpl; lia).
    replace (<[length pre:=Some (NewDecoder d)]>
               ((Some <$> pre) ++ None :: replicate n None))
      with ((Some <$> (pre ++ [d])) ++ replicate n None).
    2:{ rewrite insert_app_r_alt; rewrite length_fmap; [|lia].
        rewrite Nat.sub_diag, fmap_app, <- app_assoc. done. }
    replace (Z.of_nat (length pre) + 1) with (Z.of_nat (length (pre ++ [d])))
      by (rewrite length_app; simpl; lia).
    rewrite IH. rewrite length_app; simpl.
    replace (length pre + 1)%nat with (S (length pre)) by lia.
    destruct (open_shards f (S (length pre)) n); [|done].
    by rewrite <- app_assoc.
Qed.

Lemma read_loop_all :
  ∀ (ds pre post : list Decoder) (kvs : Groups),
    read_loop (length ds) (Z.of_nat (length pre))
      (Some <$> (pre ++ ds ++ post)) kvs = read_all ds kvs.
Proof.
  induction ds as [|d ds IH]; intros pre post kvs; simpl; [done|].
  rewrite Nat2Z.id, list_lookup_fmap.
  rewrite lookup_app_r by lia. rewrite Nat.sub_diag. simpl.
  destruct (decode_loop d None kvs) as [kvs'|]; [|done].
  replace (Z.of_nat (length pre) + 1) with (Z.of_nat (length (pre ++ [d])))
    by (rewrite length_app; simpl; lia).
  replace (pre ++ d :: ds ++ post) with ((pre ++ [d]) ++ ds ++ post)
    by (by rewrite <- app_assoc).
  apply IH.
Qed.

Lemma write_loop_appended (kvs : Groups) :
  ∀ (keys : list string) (f : gmap string (list entry)) (ur uw : gset string)
    (cs : list (string * list string)) (old : list entry),
    f !! outFile = Some old →
    write_loop reduceF outFile keys kvs (mkWorld (mkFileSys f ur uw) cs) =
    (Returned (),
     mkWorld
       (mkFileSys (<[outFile := old ++ (encode <$> written kvs keys)]> f) ur uw)
       (cs ++ called kvs keys)).
Proof.
  induction keys as [|k keys IH]; intros f ur uw cs old Hold; simpl.
  - rewrite !app_nil_r, insert_id by done. done.
  - unfold mbind, Task_bind, call_reduceF, Encode, content; simpl.
    rewrite Hold; simpl.
    erewrite IH by apply lookup_insert_eq.
    rewrite insert_insert_eq, <- !app_assoc. done.
Qed.

(** [doReduce] is [run]. *)
Lemma doReduce_run (w : World) :
  doReduce w = run w.
Proof.
  destruct w as [[f ur uw] cs].
  unfold doReduce, run, make_decoders, mbind, Task_bind.
  destruct (decide (nMap < 0)) as [|Hn]; [done|]. simpl.
  pose proof (open_loop_shards (mkFileSys f ur uw) cs (Z.to_nat nMap) []) as Ho.
  change (Z.of_nat (length (@nil Decoder))) with 0 in Ho.
  change (length (@nil Decoder)) with 0%nat in Ho.
  change ((Some <$> @nil Decoder) ++ replicate (Z.to_nat nMap) None)
    with (replicate (Z.to_nat nMap) (@None Decoder)) in Ho.
  rewrite Ho. clear Ho.
  destruct (open_shards _ 0 (Z.to_nat nMap)) as [ds|p] eqn:Hds; [|done].
  assert (Hlen : length ds = Z.to_nat nMap).
  { clear -Hds. revert ds Hds. generalize 0%nat.
    induction (Z.to_nat nMap) as [|n IH]; intros j ds H; simpl in H.
    - by inversion H.
    - destruct (shard_file _ j); [|done].
      destruct (open_shards _ (S j) n) eqn:E; [|done].
      inversion H; subst. simpl. f_equal. eauto. }
  unfold pure. rewrite <- Hlen.
  pose proof (read_loop_all ds [] [] ∅) as Hr.
  change (Z.of_nat (length (@nil Decoder))) with 0 in Hr.
  rewrite app_nil_l, app_nil_r in Hr. rewrite app_nil_l, Hr. clear Hr.
  destruct (read_all ds ∅) as [kvs|p]; [|done].
  unfold OpenFile_APPEND. simpl.
  destruct (decide (outFile ∈ uw)); [done|].
  erewrite write_loop_appended by apply lookup_insert_eq.
  unfold appended. simpl. by rewrite insert_insert_eq.
Qed.

Lemma open_shards_begins_with (f : FileSys) :
  ∀ (shards : list (list KeyValue)) (j : nat),
    (∀ i recs, shards !! i = Some recs →
       ∃ tl, shard_file f (j + i) = Some ((encode <$> recs) ++ tl) ∧ fails tl) →
    ∃ ds, open_shards f j (length shards) = inl ds ∧
          Forall2 records_then_failure ds shards.
Proof.
  induction shards as [|recs shards IH]; intros j Hs; simpl.
  - exists []. split; [done|constructor].
  - destruct (Hs 0%nat recs eq_refl) as (tl & Hd & Htl).
    rewrite Nat.add_0_r in Hd. rewrite Hd.
    destruct (IH (S j)) as (ds & -> & Hds).
    { intros i recs' Hi. replace (S j + i)%nat with (j + S i)%nat by lia.
      by apply Hs. }
    eexists. split; [done|]. constructor; [|done]. by exists tl.
Qed.

Lemma read_all_records (ds : list Decoder) (shards : list (list KeyValue)) :
  Forall2 records_then_failure ds shards →
  ∀ kvs : Groups, read_all ds kvs = Returned (group kvs (concat shards)).
Proof.
  induction 1 as [|d recs ds shards (tl & -> & Htl) _ IH]; intros kvs; simpl.
  - done.
  - rewrite decode_loop_records by done. by rewrite IH, group_app.
Qed.

Lemma written_group (recs : list KeyValue) (keys : list string) :
  written (group ∅ recs) keys =
  (λ k, mkKeyValue k (reduceF k (values_of k recs))) <$> keys.
Proof.
  unfold_written. apply list_fmap_ext. intros _ k _.
  by rewrite lookup_group_empty.
Qed.

Lemma called_group (recs : list KeyValue) (keys : list string) :
  called (group ∅ recs) keys = (λ k, (k, values_of k recs)) <$> keys.
Proof.
  unfold called. apply list_fmap_ext. intros _ k _.
  by rewrite lookup_group_empty.
Qed.

Lemma holds_begins_with (f : FileSys) (shards : list (list KeyValue)) :
  holds f shards → begins_with f shards.
Proof.
  intros Hh i recs Hi. exists []. rewrite app_nil_r. split; [auto|by left].
Qed.

(** The task on shards that hold records. *)
Lemma doReduce_records (w : World) (shards : list (list KeyValue)) :
  nMap = Z.of_nat (length shards) →
  begins_with (fs w) shards →
  outFile ∉ unwritable (fs w) →
  doReduce w =
  (Returned (),
   appended w (reduced (concat shards)) (reduce_calls (concat shards))).
Proof.
  intros Hn Hs Hw. rewrite doReduce_run. unfold_run.
  rewrite decide_False by lia.
  rewrite Hn, Nat2Z.id.
  destruct (open_shards_begins_with (fs w) shards 0 Hs) as (ds & -> & Hds).
  rewrite (read_all_records ds shards Hds).
  rewrite decide_False by done. cbv zeta.
  rewrite sorted_range_group, written_group, called_group. done.
Qed.

(** The task leaves the world as it was, or appends to the output. *)
Lemma run_cases (w : World) :
  (∃ p, run w = (Panicked p, w)) ∨
  (∃ kvs,
     (outFile ∉ unwritable (fs w)) ∧
     (run w =
      (Returned (),
       appended w (written kvs (sort_Strings (map_range kvs)))
         (called kvs (sort_Strings (map_range kvs)))))).
Proof.
  unfold_run.
  destruct (decide (nMap < 0)); [eauto|].
  destruct (open_shards _ _ _); [|eauto].
  destruct (read_all _ _) as [kvs|]; [|eauto].
  destruct (decide (outFile ∈ unwritable (fs w))); [eauto|].
  right. by exists kvs.
Qed.

Lemma open_shards_fails (f : FileSys) :
  ∀ (n j i : nat),
    (j ≤ i < j + n)%nat → shard_file f i = None →
    ∃ i', (j ≤ i' ≤ i)%nat ∧ shard_file f i' = None ∧
          (∀ k, (j ≤ k < i')%nat → is_Some (shard_file f k)) ∧
          open_shards f j n = inr (shard_name i').
Proof.
  induction n as [|n IH]; intros j i Hi Hnone; [lia|]. simpl.
  destruct (shard_file f j) as [d|] eqn:Hj.
  - assert (i ≠ j) by congruence.
    destruct (IH (S j) i) as (i' & Hi' & Hn' & Hbefore & ->); [lia|done|].
    exists i'. repeat split; try lia; try done.
    intros k Hk. destruct (decide (k = j)) as [->|]; [eauto|].
    apply Hbefore. lia.
  - exists j. repeat split; try lia; try done.
Qed.

Lemma open_shards_opens (f : FileSys) :
  ∀ (n j : nat),
    (∀ i, (j ≤ i < j + n)%nat → is_Some (shard_file f i)) →
    ∃ ds, open_shards f j n = inl ds ∧
          ∀ d, d ∈ ds → ∃ i, (j ≤ i < j + n)%nat ∧ shard_file f i = Some d.
Proof.
  induction n as [|n IH]; intros j Hall; simpl.
  - exists []. split; [done|]. by intros d ?%elem_of_nil.
  - destruct (Hall j) as [d Hd]; [lia|]. rewrite Hd.
    destruct (IH (S j)) as (ds & -> & Hds); [intros; apply Hall; lia|].
    exists (d :: ds). split; [done|].
    intros d' [->|Hin]%elem_of_cons.
    + exists j. split; [lia|done].
    + destruct (Hds d' Hin) as (i & ? & ?). exists i. split; [lia|done].
Qed.

Lemma read_all_null_free (ds : list Decoder) :
  Forall (λ d, JNull ∉ before_failure d) ds →
  ∀ kvs : Groups, ∃ kvs', read_all ds kvs = Returned kvs'.
Proof.
  induction 1 as [|d ds Hd _ IH]; intros kvs; simpl; [eauto|].
  destruct (decode_loop_null_free d Hd None kvs) as [kvs' ->]. apply IH.
Qed.

Lemma open_shards_ext (f1 f2 : FileSys) :
  ∀ (n j : nat),
    (∀ i, (j ≤ i < j + n)%nat → shard_file f1 i = shard_file f2 i) →
    open_shards f1 j n = open_shards f2 j n.
Proof.
  induction n as [|n IH]; intros j Heq; simpl; [done|].
  rewrite (Heq j) by lia. rewrite (IH (S j)); [done|].
  intros i Hi. apply Heq. lia.
Qed.

Lemma Key_written (kvs : Groups) (keys : list string) :
  Key <$> written kvs keys = keys.
Proof.
  unfold_written. rewrite <- list_fmap_compose.
  rewrite <- (list_fmap_id keys) at 2. by apply list_fmap_ext.
Qed.

Lemma Key_reduced (recs : list KeyValue) :
  Key <$> reduced recs = keys_of recs.
Proof.
  unfold_reduced. rewrite <- list_fmap_compose.
  rewrite <- (list_fmap_id (keys_of recs)) at 2. by apply list_fmap_ext.
Qed.

Lemma calls_of_key (g : string → list string) (k : string) :
  ∀ keys : list string,
    NoDup keys → k ∈ keys →
    filter (λ c, c.1 = k) ((λ k', (k', g k')) <$> keys) = [(k, g k)].
Proof.
  induction keys as [|k' keys IH]; intros Hnd Hin.
  - by apply elem_of_nil in Hin.
  - apply NoDup_cons in Hnd as [Hnotin Hnd]. rewrite fmap_cons, filter_cons.
    simpl. destruct (decide (k' = k)) as [->|Hne].
    + f_equal. clear IH Hin Hnd.
      induction keys as [|k'' keys IH]; [done|].
      apply not_elem_of_cons in Hnotin as [Hne Hnotin].
      rewrite fmap_cons, filter_cons. simpl.
      rewrite decide_False by done. auto.
    + apply elem_of_cons in Hin as [->|Hin]; [done|]. auto.
Qed.

Lemma content_appended (w : World) (recs : list KeyValue)
  (cs : list (string * list string)) :
  files (fs (appended w recs cs)) !! outFile =
  Some (content (fs w) outFile ++ (encode <$> recs)).
Proof. apply lookup_insert_eq. Qed.

Lemma shard_file_appended (w : World) (recs : list KeyValue)
  (cs : list (string * list string)) (i : nat) :
  shard_name i ≠ outFile →
  shard_file (fs (appended w recs cs)) i = shard_file (fs w) i.
Proof.
  intros Hne. unfold_shard_file. unfold open_rdonly. simpl.
  by rewrite lookup_insert_ne.
Qed.

End run_facts.

(** ** The properties of the specification *)

Section properties.

Variable reduceName : string → Z → Z → string.
Context {range : MapRange}.
Variable jobName : string.
Variable reduceTask : Z.
Variable outFile : string.
Variable nMap : Z.
Variable reduceF : string → list string → string.

Local Abbreviation shard_name := (shard_name reduceName jobName reduceTask).
Local Abbreviation shard_file := (shard_file reduceName jobName reduceTask).
Local Abbreviation holds := (holds reduceName jobName reduceTask).
Local Abbreviation begins_with := (begins_with reduceName jobName reduceTask).
Local Abbreviation reduced := (reduced reduceF).
Local Abbreviation appended := (appended outFile).
Local Abbreviation doReduce :=
  (doReduce reduceName jobName reduceTask outFile nMap reduceF).

(** C1.  Let the [nMap] shards hold any records, [shards !! i] being those of
    shard [i], and let the output path be one that can be opened.  Then
    [doReduce] returns, and the records [out] it has appended to the output
    file have pairwise distinct keys, which are exactly the keys that occur
    in some shard. *)
Theorem output_keys_are_the_input_keys
  (w : World) (shards : list (list KeyValue)) :
  nMap = Z.of_nat (length shards) →
  holds (fs w) shards →
  outFile ∉ unwritable (fs w) →
  ∃ (w' : World) (out : list KeyValue),
    doReduce w = (Returned (), w') ∧
    files (fs w') !! outFile =
      Some (content (fs w) outFile ++ (encode <$> out)) ∧
    NoDup (Key <$> out) ∧
    ∀ k : string,
      k ∈ Key <$> out ↔ ∃ recs, recs ∈ shards ∧ k ∈ Key <$> recs.
Proof.
  intros Hn Hs Hw.
  eexists _, (reduced (concat shards)). split; [|split; [|split]].
  - apply doReduce_records; [done|by apply holds_begins_with|done].
  - apply content_appended.
  - rewrite Key_reduced. apply NoDup_keys_of.
  - intros k. rewrite Key_reduced, elem_of_keys_of, list_elem_of_fmap. split.
    + intros (r & -> & (recs & Hrecs & Hr)%elem_of_concat).
      exists recs. split; [done|]. by apply list_elem_of_fmap_2.
    + intros (recs & Hrecs & (r & -> & Hr)%list_elem_of_fmap).
      exists r. split; [done|]. apply elem_of_concat. eauto.
Qed.

(** C2.  Under the same conditions, for every key [k] of the inputs the
    calls of the reduce function made by the task contain exactly one call
    for [k], and its values are the occurrences of [k] shard after shard in
    ascending index, each shard in its own order. *)
Theorem reduce_called_once_per_key
  (w : World) (shards : list (list KeyValue)) :
  nMap = Z.of_nat (length shards) →
  holds (fs w) shards →
  outFile ∉ unwritable (fs w) →
  ∃ (w' : World) (cs : list (string * list string)),
    doReduce w = (Returned (), w') ∧
    calls w' = calls w ++ cs ∧
    ∀ k : string,
      (∃ recs, recs ∈ shards ∧ k ∈ Key <$> recs) →
      filter (λ c, c.1 = k) cs = [(k, concat (values_of k <$> shards))].
Proof.
  intros Hn Hs Hw.
  eexists _, (reduce_calls (concat shards)). split; [|split].
  - apply doReduce_records; [done|by apply holds_begins_with|done].
  - done.
  - intros k (recs & Hrecs & (r & -> & Hr)%list_elem_of_fmap).
    unfold reduce_calls.
    rewrite (calls_of_key (λ k, values_of k (concat shards))).
    + by rewrite values_of_concat.
    + apply NoDup_keys_of.
    + apply elem_of_keys_of, list_elem_of_fmap. exists r. split; [done|].
      apply elem_of_concat. eauto.
Qed.

(** C3.  Whatever the world the task starts in, the records [out] it appends
    to the output file are in strictly ascending order of their keys,
    compared byte by byte, and no key occurs twice. *)
Theorem output_strictly_ascending (w : World) :
  ∃ out : list KeyValue,
    content (fs (doReduce w).2) outFile =
      content (fs w) outFile ++ (encode <$> out) ∧
    Sorted string_lt (Key <$> out) ∧
    NoDup (Key <$> out).
Proof.
  rewrite doReduce_run.
  destruct (run_cases reduceName jobName reduceTask outFile nMap reduceF w)
    as [[p ->]|(kvs & _ & ->)].
  - exists []. simpl. rewrite app_nil_r. repeat split; constructor.
  - eexists. split; [|split].
    + unfold content at 1. cbn [snd]. by rewrite content_appended.
    + rewrite Key_written. apply sort_Strings_strict, NoDup_map_range.
    + rewrite Key_written. apply NoDup_sort_Strings, NoDup_map_range.
Qed.

(** C4.  Let every shard of [w] hold the records [shards !! i] followed by
    the end of the file or by a value that does not decode (and then by
    anything), and let the shards of [w'] hold the same records and end
    there.  Then the task returns in both worlds, without a panic, and it
    appends the same records and makes the same calls in both: those of all
    the records that precede the failures. *)
Theorem decode_failure_is_end_of_shard
  (w w' : World) (shards : list (list KeyValue)) :
  nMap = Z.of_nat (length shards) →
  begins_with (fs w) shards →
  holds (fs w') shards →
  outFile ∉ unwritable (fs w) →
  outFile ∉ unwritable (fs w') →
  doReduce w =
    (Returned (),
     appended w (reduced (concat shards)) (reduce_calls (concat shards))) ∧
  doReduce w' =
    (Returned (),
     appended w' (reduced (concat shards)) (reduce_calls (concat shards))).
Proof.
  intros Hn Hs Hs' Hw Hw'. split.
  - by apply doReduce_records.
  - apply doReduce_records; [done|by apply holds_begins_with|done].
Qed.

(** C5.  The output is opened for appending and what the file holds stays:
    a first run appends the reduced records to it, and a second run on the
    same shards (none of which is the output file) appends them once more.
    When there is any record at all, the second run changes the file. *)
Theorem second_run_appends_again
  (w : World) (shards : list (list KeyValue)) :
  nMap = Z.of_nat (length shards) →
  holds (fs w) shards →
  outFile ∉ unwritable (fs w) →
  (∀ i : nat, (i < length shards)%nat → shard_name i ≠ outFile) →
  ∃ w1 w2 : World,
    doReduce w = (Returned (), w1) ∧
    doReduce w1 = (Returned (), w2) ∧
    files (fs w1) !! outFile =
      Some (content (fs w) outFile ++ (encode <$> reduced (concat shards))) ∧
    files (fs w2) !! outFile =
      Some (content (fs w) outFile ++ (encode <$> reduced (concat shards))
              ++ (encode <$> reduced (concat shards))) ∧
    (concat shards ≠ [] →
     files (fs w2) !! outFile ≠ files (fs w1) !! outFile).
Proof.
  intros Hn Hs Hw Hne.
  pose proof (doReduce_records reduceName jobName reduceTask outFile nMap
                reduceF w shards Hn (holds_begins_with _ _ _ _ _ Hs) Hw) as H1.
  set (w1 := appended w (reduced (concat shards))
               (reduce_calls (concat shards))) in *.
  assert (Hs1 : holds (fs w1) shards).
  { intros i recs Hi. unfold w1. rewrite shard_file_appended; [by apply Hs|].
    apply Hne. by eapply lookup_lt_Some. }
  pose proof (doReduce_records reduceName jobName reduceTask outFile nMap
                reduceF w1 shards Hn (holds_begins_with _ _ _ _ _ Hs1) Hw) as H2.
  assert (Hc1 : content (fs w1) outFile =
                content (fs w) outFile ++ (encode <$> reduced (concat shards))).
  { unfold content at 1, w1. by rewrite content_appended. }
  eexists _, _. split; [exact H1|]. split; [exact H2|]. split; [|split].
  - apply content_appended.
  - rewrite content_appended, Hc1, <- app_assoc. done.
  - intros Hrecs. rewrite content_appended, Hc1. unfold w1.
    rewrite content_appended.
    intros Heq. apply (inj Some) in Heq.
    apply (f_equal length) in Heq. rewrite !length_app, !length_fmap in Heq.
    assert (length (reduced (concat shards)) = 0%nat) as Hlen by lia.
    apply nil_length_inv in Hlen.
    destruct (concat shards) as [|r recs] eqn:Hcat; [done|].
    assert (Key r ∈ Key <$> reduced (r :: recs)) as Hin.
    { rewrite Key_reduced. apply elem_of_keys_of. left. }
    rewrite Hlen in Hin. by apply elem_of_nil in Hin.
Qed.

(** C6.  When one of the [nMap] shards does not open, the task panics with
    the failure to open a shard (the first that does not open), and the
    world is the one it started in: no file is created or changed, the
    reduce function is not called. *)
Theorem missing_shard_is_fatal (w : World) (i : nat) :
  Z.of_nat i < nMap →
  shard_file (fs w) i = None →
  ∃ i' : nat,
    Z.of_nat i' < nMap ∧
    shard_file (fs w) i' = None ∧
    doReduce w = (Panicked (FailedToOpen (shard_name i')), w).
Proof.
  intros Hi Hnone. rewrite doReduce_run. unfold run.
  rewrite decide_False by lia.
  destruct (open_shards_fails reduceName jobName reduceTask (fs w)
              (Z.to_nat nMap) 0 i) as (i' & Hi' & Hn' & _ & ->);
    [lia|done|].
  exists i'. split; [lia|]. done.
Qed.

(** C7.  With no map task, no file at the output path, and an output path
    that can be opened, the task returns and leaves an empty file there. *)
Theorem no_map_task_gives_empty_output (w : World) :
  nMap = 0 →
  files (fs w) !! outFile = None →
  outFile ∉ unwritable (fs w) →
  ∃ w' : World,
    doReduce w = (Returned (), w') ∧
    files (fs w') !! outFile = Some [] ∧
    calls w' = calls w.
Proof.
  intros Hn Hnone Hw. eexists. split; [|split].
  - apply (doReduce_records _ _ _ _ _ _ w []); [by rewrite Hn| |done].
    intros i recs Hi. by rewrite lookup_nil in Hi.
  - rewrite content_appended. unfold content. by rewrite Hnone.
  - simpl. by rewrite app_nil_r.
Qed.

(** C10.  When every shard opens and the output path does not, the task
    panics and the world is the one it started in: the output path is as it
    was and the reduce function is not called.  The panic is the failure to
    open the output file, raised after all the shards were read, unless the
    reading itself panics, which takes a JSON null among the values of a
    shard that precede its first failure. *)
Theorem unwritable_output_is_fatal (w : World) :
  0 ≤ nMap →
  (∀ i : nat, Z.of_nat i < nMap → is_Some (shard_file (fs w) i)) →
  outFile ∈ unwritable (fs w) →
  ∃ p : Panic,
    doReduce w = (Panicked p, w) ∧
    ((∀ (i : nat) (d : Decoder),
        Z.of_nat i < nMap → shard_file (fs w) i = Some d →
        JNull ∉ before_failure d) →
     p = FailedToOpen outFile).
Proof.
  intros Hn Hall Hw. rewrite doReduce_run. unfold run.
  rewrite decide_False by lia.
  destruct (open_shards_opens reduceName jobName reduceTask (fs w)
              (Z.to_nat nMap) 0) as (ds & -> & Hds).
  { intros i Hi. apply Hall. lia. }
  destruct (read_all ds ∅) as [kvs|p] eqn:Hread.
  - rewrite decide_True by done. eauto.
  - exists p. split; [done|]. intros Hnull.
    destruct (read_all_null_free ds) with (kvs := (∅ : Groups)) as [kvs' Hk].
    + apply Forall_forall. intros d (i & Hi & Hd)%Hds.
      apply (Hnull i); [lia|done].
    + congruence.
Qed.

End properties.

Section scenario.

Variable reduceName : string → Z → Z → string.
Context {range : MapRange}.
Variable jobName : string.
Variable reduceTask : Z.
Variable outFile : string.

(** C8.  Scenario A: two map tasks, shard 0 holding ("a","1") and ("b","2"),
    shard 1 holding ("a","3"), the reduce function summing the values as
    text.  The task returns, having appended ("a","4") and then ("b","2") to
    the output file, which it finds empty when there was no such file. *)
Theorem scenario_A_output (w : World) :
  holds reduceName jobName reduceTask (fs w)
    [[mkKeyValue "a" "1"; mkKeyValue "b" "2"]; [mkKeyValue "a" "3"]] →
  outFile ∉ unwritable (fs w) →
  ∃ w' : World,
    doReduce reduceName jobName reduceTask outFile 2 sum_as_text w =
      (Returned (), w') ∧
    files (fs w') !! outFile =
      Some (content (fs w) outFile ++
            [encode (mkKeyValue "a" "4"); encode (mkKeyValue "b" "2")]).
Proof.
  intros Hs Hw. eexists. split.
  - eapply doReduce_records;
      [|apply holds_begins_with, Hs|done]. reflexivity.
  - rewrite content_appended. do 2 f_equal.
Qed.

End scenario.

Section determinism.

Variable reduceName : string → Z → Z → string.
Variable jobName : string.
Variable reduceTask : Z.
Variable nMap : Z.
Variable reduceF : string → list string → string.

Local Abbreviation shard_file := (shard_file reduceName jobName reduceTask).

(** C9.  Two runs of the task, in worlds whose shards are the same, with the
    same reduce function, each with an output path where there is no file
    and that can be opened, and with any two orders of iteration over the
    groups: the two runs end the same way, and the two output files have the
    same content. *)
Theorem fresh_runs_give_identical_output
  (range1 range2 : MapRange) (w1 w2 : World) (out1 out2 : string) :
  (∀ i : nat, Z.of_nat i < nMap → shard_file (fs w1) i = shard_file (fs w2) i) →
  files (fs w1) !! out1 = None →
  files (fs w2) !! out2 = None →
  out1 ∉ unwritable (fs w1) →
  out2 ∉ unwritable (fs w2) →
  (@doReduce reduceName range1 jobName reduceTask out1 nMap reduceF w1).1 =
  (@doReduce reduceName range2 jobName reduceTask out2 nMap reduceF w2).1 ∧
  files (fs (@doReduce reduceName range1 jobName reduceTask out1 nMap reduceF
               w1).2) !! out1 =
  files (fs (@doReduce reduceName range2 jobName reduceTask out2 nMap reduceF
               w2).2) !! out2.
Proof.
  intros Hsame Hf1 Hf2 Hw1 Hw2. rewrite !doReduce_run. unfold run.
  assert (Hpanic : ∀ p : Panic,
             (Panicked (A := unit) p, w1).1 = (Panicked (A := unit) p, w2).1 ∧
             files (fs (Panicked (A := unit) p, w1).2) !! out1 =
             files (fs (Panicked (A := unit) p, w2).2) !! out2).
  { intros p. cbn [fst snd]. by rewrite Hf1, Hf2. }
  destruct (decide (nMap < 0)); [done|].
  rewrite (open_shards_ext reduceName jobName reduceTask (fs w1) (fs w2)).
  2:{ intros i Hi. apply Hsame. lia. }
  destruct (open_shards _ _ _ (fs w2) 0 (Z.to_nat nMap)) as [ds|p]; [|done].
  destruct (read_all ds ∅) as [kvs|p]; [|done].
  rewrite !decide_False by done. cbv zeta. split; [done|].
  cbn [snd]. rewrite !content_appended. unfold content.
  rewrite Hf1, Hf2. by rewrite (sorted_range_irrelevant range1 range2).
Qed.

End determinism.

(** ** Concrete runs *)

Example run_world_A :
  (run_A world_A).1 = Returned () ∧
  files (fs (run_A world_A).2) !! "out" =
    Some [encode (mkKeyValue "a" "4"); encode (mkKeyValue "b" "2")] ∧
  calls (run_A world_A).2 = [("a", ["1"; "3"]); ("b", ["2"])].
Proof. by vm_compute. Qed.

Example run_world_missing :
  run_A world_missing = (Panicked (FailedToOpen "mrtmp.job-1-0"), world_missing).
Proof. by vm_compute. Qed.

Example run_world_locked :
  run_A world_locked = (Panicked (FailedToOpen "out"), world_locked).
Proof. by vm_compute. Qed.

(** A null makes [kv] nil, and [kv.Key] panics. *)
Example run_world_null :
  run_A world_null = (Panicked NilDereference, world_null).
Proof. by vm_compute. Qed.

(** An object without [Value] keeps the value of the record before it. *)
Example run_world_partial :
  calls (run_A world_partial).2 = [("a", ["1"; "3"]); ("b", ["1"])].
Proof. by vm_compute. Qed.

Example run_negative :
  @doReduce mrtmp_name range_forward "job" 0 "out" (-1) sum_as_text world_A =
  (Panicked MakesliceLen, world_A).
Proof. by vm_compute. Qed.

Lemma world_A_holds : holds mrtmp_name "job" 0 (fs world_A) [shard0; shard1].
Proof.
  intros [|[|i]] recs Hi; simpl in Hi; inversion Hi; subst; by vm_compute.
Qed.

Lemma world_damaged_begins_with :
  begins_with mrtmp_name "job" 0 (fs world_damaged) [shard0; shard1].
Proof.
  intros [|[|i]] recs Hi; simpl in Hi; inversion Hi; subst.
  - exists [JInvalid; encode (mkKeyValue "c" "7")].
    split; [by vm_compute|right; eauto].
  - exists []. split; [by vm_compute|by left].
Qed.

Lemma out_writable (f : gmap string (list entry)) (p : string) :
  p ∉ unwritable (mkFileSys f ∅ ∅).
Proof. apply not_elem_of_empty. Qed.

(** The properties at these runs. *)

Lemma output_keys_are_the_input_keys_witness :
  ∃ (w' : World) (out : list KeyValue),
    run_A world_A = (Returned (), w') ∧
    files (fs w') !! "out" =
      Some (content (fs world_A) "out" ++ (encode <$> out)) ∧
    NoDup (Key <$> out) ∧
    ∀ k : string,
      k ∈ Key <$> out ↔ ∃ recs, recs ∈ [shard0; shard1] ∧ k ∈ Key <$> recs.
Proof.
  apply (@output_keys_are_the_input_keys mrtmp_name range_forward "job" 0
           "out" 2 sum_as_text world_A [shard0; shard1]).
  - reflexivity.
  - exact world_A_holds.
  - apply out_writable.
Defined.

Lemma reduce_called_once_per_key_witness :
  ∃ (w' : World) (cs : list (string * list string)),
    run_A world_A = (Returned (), w') ∧
    calls w' = calls world_A ++ cs ∧
    ∀ k : string,
      (∃ recs, recs ∈ [shard0; shard1] ∧ k ∈ Key <$> recs) →
      filter (λ c, c.1 = k) cs =
      [(k, concat (values_of k <$> [shard0; shard1]))].
Proof.
  apply (@reduce_called_once_per_key mrtmp_name range_forward "job" 0
           "out" 2 sum_as_text world_A [shard0; shard1]).
  - reflexivity.
  - exact world_A_holds.
  - apply out_writable.
Defined.

Lemma decode_failure_is_end_of_shard_witness :
  run_A world_damaged =
    (Returned (),
     appended "out" world_damaged
       (reduced sum_as_text (concat [shard0; shard1]))
       (reduce_calls (concat [shard0; shard1]))) ∧
  run_A world_A =
    (Returned (),
     appended "out" world_A
       (reduced sum_as_text (concat [shard0; shard1]))
       (reduce_calls (concat [shard0; shard1]))).
Proof.
  apply (@decode_failure_is_end_of_shard mrtmp_name range_forward "job" 0
           "out" 2 sum_as_text world_damaged world_A [shard0; shard1]).
  - reflexivity.
  - exact world_damaged_begins_with.
  - exact world_A_holds.
  - apply out_writable.
  - apply out_writable.
Defined.

Lemma second_run_appends_again_witness :
  ∃ w1 w2 : World,
    run_A world_A = (Returned (), w1) ∧
    run_A w1 = (Returned (), w2) ∧
    files (fs w1) !! "out" =
      Some (content (fs world_A) "out" ++
            (encode <$> reduced sum_as_text (concat [shard0; shard1]))) ∧
    files (fs w2) !! "out" =
      Some (content (fs world_A) "out" ++
            (encode <$> reduced sum_as_text (concat [shard0; shard1])) ++
            (encode <$> reduced sum_as_text (concat [shard0; shard1]))) ∧
    (concat [shard0; shard1] ≠ [] →
     files (fs w2) !! "out" ≠ files (fs w1) !! "out").
Proof.
  apply (@second_run_appends_again mrtmp_name range_forward "job" 0
           "out" 2 sum_as_text world_A [shard0; shard1]).
  - reflexivity.
  - exact world_A_holds.
  - apply out_writable.
  - intros [|[|i]] Hi; [by vm_compute..|simpl in Hi; lia].
Defined.

Lemma missing_shard_is_fatal_witness :
  ∃ i' : nat,
    Z.of_nat i' < 2 ∧
    shard_file mrtmp_name "job" 0 (fs world_missing) i' = None ∧
    run_A world_missing =
      (Panicked (FailedToOpen (shard_name mrtmp_name "job" 0 i')),
       world_missing).
Proof.
  apply (@missing_shard_is_fatal mrtmp_name range_forward "job" 0 "out" 2
           sum_as_text world_missing 1).
  - lia.
  - by vm_compute.
Defined.

Lemma no_map_task_gives_empty_output_witness :
  ∃ w' : World,
    @doReduce mrtmp_name range_forward "job" 0 "out" 0 sum_as_text world_A =
      (Returned (), w') ∧
    files (fs w') !! "out" = Some [] ∧
    calls w' = calls world_A.
Proof.
  apply (@no_map_task_gives_empty_output mrtmp_name range_forward "job" 0
           "out" 0 sum_as_text world_A).
  - reflexivity.
  - by vm_compute.
  - apply out_writable.
Defined.

Lemma scenario_A_output_witness :
  ∃ w' : World,
    run_A world_A = (Returned (), w') ∧
    files (fs w') !! "out" =
      Some (content (fs world_A) "out" ++
            [encode (mkKeyValue "a" "4"); encode (mkKeyValue "b" "2")]).
Proof.
  apply (@scenario_A_output mrtmp_name range_forward "job" 0 "out" world_A).
  - exact world_A_holds.
  - apply out_writable.
Defined.

Lemma fresh_runs_give_identical_output_witness :
  (@doReduce mrtmp_name range_forward "job" 0 "out" 2 sum_as_text world_A).1 =
  (@doReduce mrtmp_name range_backward "job" 0 "again" 2 sum_as_text
     world_B).1 ∧
  files (fs (@doReduce mrtmp_name range_forward "job" 0 "out" 2 sum_as_text
               world_A).2) !! "out" =
  files (fs (@doReduce mrtmp_name range_backward "job" 0 "again" 2 sum_as_text
               world_B).2) !! "again".
Proof.
  apply (@fresh_runs_give_identical_output mrtmp_name "job" 0 2 sum_as_text
           range_forward range_backward world_A world_B "out" "again").
  - intros [|[|i]] Hi; [by vm_compute..|lia].
  - by vm_compute.
  - by vm_compute.
  - apply out_writable.
  - apply out_writable.
Defined.

Lemma unwritable_output_is_fatal_witness :
  ∃ p : Panic,
    run_A world_locked = (Panicked p, world_locked) ∧
    ((∀ (i : nat) (d : Decoder),
        Z.of_nat i < 2 →
        shard_file mrtmp_name "job" 0 (fs world_locked) i = Some d →
        JNull ∉ before_failure d) →
     p = FailedToOpen "out").
Proof.
  apply (@unwritable_output_is_fatal mrtmp_name range_forward "job" 0 "out" 2
           sum_as_text world_locked).
  - lia.
  - intros [|[|i]] Hi; [vm_compute; eauto..|lia].
  - by vm_compute.
Defined.

(** ** Further facts about the loops *)

Section further_facts.

Ltac unfold_the_run := unfold run.

Variable reduceName : string → Z → Z → string.
Context {range : MapRange}.
Variable jobName : string.
Variable reduceTask : Z.
Variable outFile : string.
Variable nMap : Z.
Variable reduceF : string → list string → string.

Local Abbreviation shard_file := (shard_file reduceName jobName reduceTask).
Local Abbreviation open_shards := (open_shards reduceName jobName reduceTask).
Local Abbreviation written := (written reduceF).
Local Abbreviation appended := (appended outFile).
Local Abbreviation run :=
  (run reduceName jobName reduceTask outFile nMap reduceF).

Lemma decode_loop_null (d : list entry) :
  JNull ∈ before_failure d →
  ∀ (kv : option KeyValue) (kvs : Groups),
    decode_loop d kv kvs = Panicked NilDereference.
Proof.
  induction d as [|e d IH]; intros Hin kv kvs; simpl in *.
  - by apply elem_of_nil in Hin.
  - destruct e as [k v| |]; simpl in *.
    + apply IH. by apply elem_of_cons in Hin as [|].
    + done.
    + by apply elem_of_nil in Hin.
Qed.

Lemma read_all_null (ds : list Decoder) :
  Exists (λ d, JNull ∈ before_failure d) ds →
  ∀ kvs : Groups, read_all ds kvs = Panicked NilDereference.
Proof.
  induction ds as [|d ds IH]; intros Hex kvs; [by apply Exists_nil in Hex|].
  simpl. destruct (decide (JNull ∈ before_failure d)) as [Hd|Hd].
  - by rewrite decode_loop_null.
  - destruct (decode_loop_null_free d Hd None kvs) as [kvs' ->].
    apply IH. by apply Exists_cons in Hex as [|].
Qed.

Lemma open_shards_inl (f : FileSys) :
  ∀ (n j : nat) (ds : list Decoder),
    open_shards f j n = inl ds →
    ∀ i : nat, (j ≤ i < j + n)%nat → ∃ d, shard_file f i = Some d ∧ d ∈ ds.
Proof.
  induction n as [|n IH]; intros j ds Hds i Hi; [lia|]. simpl in Hds.
  destruct (shard_file f j) as [d|] eqn:Hj; [|done].
  destruct (open_shards f (S j) n) as [ds'|] eqn:Hds'; [|done].
  inversion Hds; subst ds.
  destruct (decide (i = j)) as [->|Hne].
  - exists d. split; [done|left].
  - destruct (IH (S j) ds' Hds' i) as (d' & Hd' & Hin); [lia|].
    exists d'. split; [done|by right].
Qed.

Lemma add_value_nonempty (r : KeyValue) (kvs : Groups) :
  all_nonempty kvs → all_nonempty (add_value r kvs).
Proof.
  intros Hinv k vs. unfold add_value.
  destruct (decide (Key r = k)) as [->|Hne].
  - rewrite lookup_insert_eq. intros [= <-]. by intros [_ ?]%app_eq_nil.
  - rewrite lookup_insert_ne by done. apply Hinv.
Qed.

Lemma decode_loop_nonempty (d : list entry) :
  ∀ (kv : option KeyValue) (kvs kvs' : Groups),
    all_nonempty kvs → decode_loop d kv kvs = Returned kvs' →
    all_nonempty kvs'.
Proof.
  induction d as [|e d IH]; intros kv kvs kvs' Hinv Hd; simpl in Hd.
  - by inversion Hd; subst.
  - destruct (Decode e kv) as [[r|]|]; [|done|by inversion Hd; subst].
    eapply IH; [|exact Hd]. by apply add_value_nonempty.
Qed.

Lemma read_all_nonempty (ds : list Decoder) :
  ∀ kvs kvs' : Groups,
    all_nonempty kvs → read_all ds kvs = Returned kvs' → all_nonempty kvs'.
Proof.
  induction ds as [|d ds IH]; intros kvs kvs' Hinv Hr; simpl in Hr.
  - by inversion Hr; subst.
  - destruct (decode_loop d None kvs) as [kvs1|] eqn:Hd; [|done].
    eapply IH; [|exact Hr]. by eapply decode_loop_nonempty.
Qed.

(** The cases of [run], with what the loops found. *)
Lemma run_returned (w : World) :
  (∃ p, run w = (Panicked p, w)) ∨
  (∃ (ds : list Decoder) (kvs : Groups),
     0 ≤ nMap ∧
     open_shards (fs w) 0 (Z.to_nat nMap) = inl ds ∧
     read_all ds ∅ = Returned kvs ∧
     (outFile ∉ unwritable (fs w)) ∧
     (run w =
      (Returned (),
       appended w (written kvs (sort_Strings (map_range kvs)))
         (called kvs (sort_Strings (map_range kvs)))))).
Proof.
  unfold_the_run.
  destruct (decide (nMap < 0)); [eauto|].
  destruct (open_shards _ _ _) as [ds|] eqn:Hds; [|eauto].
  destruct (read_all _ _) as [kvs|] eqn:Hr; [|eauto].
  destruct (decide (outFile ∈ unwritable (fs w))); [eauto|].
  right. exists ds, kvs. repeat split; try done. lia.
Qed.


Lemma fst_called (kvs : Groups) (keys : list string) :
  (called kvs keys).*1 = keys.
Proof. induction keys as [|k keys IH]; simpl; [done|]. by f_equal. Qed.

Lemma concat_unchanged {A : Type} (f : string → list A) (x : A)
  (k0 : string) (keys : list string) :
  k0 ∉ keys →
  (λ k, if decide (k0 = k) then x :: f k else f k) <$> keys = f <$> keys.
Proof.
  induction keys as [|k keys IH]; intros Hnotin; [done|].
  apply not_elem_of_cons in Hnotin as [Hne Hnotin]. simpl.
  rewrite decide_False by done. f_equal. auto.
Qed.

Lemma concat_insert_once {A : Type} (f : string → list A) (x : A)
  (k0 : string) (keys : list string) :
  NoDup keys → k0 ∈ keys →
  concat ((λ k, if decide (k0 = k) then x :: f k else f k) <$> keys)
  ≡ₚ x :: concat (f <$> keys).
Proof.
  induction keys as [|k keys IH]; intros Hnd Hin.
  - by apply elem_of_nil in Hin.
  - apply NoDup_cons in Hnd as [Hnotin Hnd]. simpl.
    destruct (decide (k0 = k)) as [->|Hne].
    + change (list_fmap string (list A)
                (λ k1, if decide (k = k1) then x :: f k1 else f k1) keys)
        with ((λ k1, if decide (k = k1) then x :: f k1 else f k1) <$> keys).
      by rewrite concat_unchanged.
    + apply elem_of_cons in Hin as [?|Hin]; [done|].
      change (list_fmap string (list A)
                (λ k1, if decide (k0 = k1) then x :: f k1 else f k1) keys)
        with ((λ k1, if decide (k0 = k1) then x :: f k1 else f k1) <$> keys).
      rewrite IH by done. by rewrite Permutation_middle.
Qed.

(** The values of the records, key after key, are the values of the
    records. *)
Lemma values_partition (keys : list string) :
  NoDup keys →
  ∀ recs : list KeyValue,
    (∀ r, r ∈ recs → Key r ∈ keys) →
    concat ((λ k, values_of k recs) <$> keys) ≡ₚ Value <$> recs.
Proof.
  intros Hnd. induction recs as [|r recs IH]; intros Hkeys.
  - clear. induction keys as [|k keys IH]; [done|]. simpl. apply IH.
  - rewrite (list_fmap_ext _
               (λ k, if decide (Key r = k) then Value r :: values_of k recs
                     else values_of k recs) keys)
      by (intros; apply values_of_cons).
    rewrite concat_insert_once; [|done|apply Hkeys; left].
    simpl. apply perm_skip, IH. intros r' Hr'. apply Hkeys. by right.
Qed.

Lemma keys_of_perm (recs recs' : list KeyValue) :
  recs ≡ₚ recs' → keys_of recs = keys_of recs'.
Proof.
  intros Hp. apply sort_Strings_unique, NoDup_Permutation.
  - apply NoDup_remove_dups.
  - apply NoDup_remove_dups.
  - intros k. rewrite !elem_of_remove_dups. by rewrite Hp.
Qed.

Lemma values_of_perm (k : string) (recs recs' : list KeyValue) :
  recs ≡ₚ recs' → values_of k recs ≡ₚ values_of k recs'.
Proof. intros Hp. unfold values_of. by rewrite Hp. Qed.


(** The inner loop after the records of a prefix: [kv] points to the last
    of them. *)
Lemma decode_loop_after_records (recs : list KeyValue) :
  ∀ (rest : list entry) (kv : option KeyValue) (kvs : Groups),
    decode_loop ((encode <$> recs) ++ rest) kv kvs =
    decode_loop rest (from_option Some kv (last recs)) (group kvs recs).
Proof.
  induction recs as [|r recs IH]; intros rest kv kvs; [done|].
  cbn [fmap list_fmap app decode_loop].
  change (list_fmap KeyValue entry encode recs) with (encode <$> recs).
  rewrite Decode_encode, IH.
  change (group kvs (r :: recs)) with (group (add_value r kvs) recs).
  f_equal. destruct recs as [|r' recs]; [done|].
  rewrite last_cons_cons.
  destruct (last (r' :: recs)) eqn:Hl; [done|].
  by apply last_None in Hl.
Qed.

End further_facts.

(** ** Further properties of the task *)

Section further.

Ltac unfold_reduced := unfold reduced.
Ltac unfold_shard_file_all := unfold shard_file in *.
Ltac unfold_appended := unfold appended.

Variable reduceName : string → Z → Z → string.
Context {range : MapRange}.
Variable jobName : string.
Variable reduceTask : Z.
Variable outFile : string.
Variable nMap : Z.
Variable reduceF : string → list string → string.

Local Abbreviation shard_file := (shard_file reduceName jobName reduceTask).
Local Abbreviation holds := (holds reduceName jobName reduceTask).
Local Abbreviation reduced := (reduced reduceF).
Local Abbreviation appended := (appended outFile).
Local Abbreviation doReduce :=
  (doReduce reduceName jobName reduceTask outFile nMap reduceF).

(** X1.  Whatever the world, the task changes no file but the output file,
    changes no permission, and keeps the calls already logged. *)
Theorem only_the_output_file_changes (w : World) :
  unreadable (fs (doReduce w).2) = unreadable (fs w) ∧
  unwritable (fs (doReduce w).2) = unwritable (fs w) ∧
  (∀ p : string,
     p ≠ outFile → files (fs (doReduce w).2) !! p = files (fs w) !! p) ∧
  calls w `prefix_of` calls (doReduce w).2.
Proof.
  rewrite doReduce_run.
  destruct (run_cases reduceName jobName reduceTask outFile nMap reduceF w)
    as [[p ->]|(kvs & _ & ->)]; cbn [snd].
  - repeat split; done.
  - repeat split; try done.
    + intros p Hp. simpl. by rewrite lookup_insert_ne.
    + simpl. by eexists.
Qed.

(** X2.  A run that panics leaves the world as it was: every panic of the
    task is raised before its first write and its first call. *)
Theorem panic_leaves_the_world (w : World) (p : Panic) :
  (doReduce w).1 = Panicked p → (doReduce w).2 = w.
Proof.
  rewrite doReduce_run.
  destruct (run_cases reduceName jobName reduceTask outFile nMap reduceF w)
    as [[p' ->]|(kvs & _ & ->)]; cbn [fst snd]; [done|].
  intros [=].
Qed.

(** X3.  The task returns exactly when [nMap] is not negative, every shard
    opens and holds no JSON null among the values that precede its first
    undecodable one, and the output path can be opened. *)
Theorem returns_iff (w : World) :
  (doReduce w).1 = Returned () ↔
  0 ≤ nMap ∧
  (∀ i : nat,
     Z.of_nat i < nMap →
     ∃ d, shard_file (fs w) i = Some d ∧ JNull ∉ before_failure d) ∧
  outFile ∉ unwritable (fs w).
Proof.
  rewrite doReduce_run. split.
  - destruct (run_returned reduceName jobName reduceTask outFile nMap
                reduceF w) as [[p ->]|(ds & kvs & Hn & Hds & Hr & Hw & ->)];
      [done|]. intros _. repeat split; try done.
    intros i Hi.
    destruct (open_shards_inl _ _ _ _ _ _ _ Hds i) as (d & Hd & Hin); [lia|].
    exists d. split; [done|]. intros Hnull.
    rewrite read_all_null in Hr; [done|].
    apply Exists_exists. eauto.
  - intros (Hn & Hall & Hw). unfold run. rewrite decide_False by lia.
    destruct (open_shards_opens reduceName jobName reduceTask (fs w)
                (Z.to_nat nMap) 0) as (ds & -> & Hds).
    { intros i Hi. destruct (Hall i) as (d & -> & _); [lia|eauto]. }
    destruct (read_all_null_free ds) with (kvs := (∅ : Groups))
      as [kvs ->].
    { apply Forall_forall. intros d (i & Hi & Hd)%Hds.
      destruct (Hall i) as (d' & Hd' & Hnull); [lia|]. congruence. }
    by rewrite decide_False.
Qed.

(** X4.  When every shard opens and one of them holds a JSON null before its
    first undecodable value, the task panics on a nil pointer, whether or
    not the output path can be opened, and the world is as it was. *)
Theorem null_in_a_shard_panics (w : World) (i : nat) (d : Decoder) :
  (∀ j : nat, Z.of_nat j < nMap → is_Some (shard_file (fs w) j)) →
  Z.of_nat i < nMap →
  shard_file (fs w) i = Some d →
  JNull ∈ before_failure d →
  doReduce w = (Panicked NilDereference, w).
Proof.
  intros Hall Hi Hd Hnull. rewrite doReduce_run. unfold run.
  rewrite decide_False by lia.
  destruct (open_shards_opens reduceName jobName reduceTask (fs w)
              (Z.to_nat nMap) 0) as (ds & Hds & _).
  { intros j Hj. apply Hall. lia. }
  rewrite Hds.
  destruct (open_shards_inl _ _ _ _ _ _ _ Hds i) as (d' & Hd' & Hin); [lia|].
  rewrite read_all_null; [done|].
  apply Exists_exists. exists d'. split; [done|]. congruence.
Qed.


(** X6.  Whatever the world, the calls of the reduce function are made in
    strictly ascending order of the keys, and none has an empty list of
    values. *)
Theorem calls_ascending_and_nonempty (w : World) :
  ∃ cs : list (string * list string),
    calls (doReduce w).2 = calls w ++ cs ∧
    Sorted string_lt (cs.*1) ∧
    Forall (λ c, c.2 ≠ []) cs.
Proof.
  rewrite doReduce_run.
  destruct (run_returned reduceName jobName reduceTask outFile nMap
              reduceF w) as [[p ->]|(ds & kvs & Hn & Hds & Hr & Hw & ->)];
    cbn [snd].
  - exists []. rewrite app_nil_r. repeat split; constructor.
  - eexists. split; [done|]. split.
    + rewrite fst_called. apply sort_Strings_strict, NoDup_map_range.
    + apply Forall_fmap, Forall_forall. intros k Hk. simpl.
      apply elem_of_sort_Strings, elem_of_map_range in Hk as [vs Hvs].
      rewrite Hvs. simpl.
      apply (read_all_nonempty ds ∅ kvs) in Hvs; [done| |done].
      intros k' vs'. by rewrite lookup_empty.
Qed.

(** X7.  A negative [nMap] makes the task panic when it allocates the
    decoders, before any file is opened. *)
Theorem negative_nMap_panics (w : World) :
  nMap < 0 → doReduce w = (Panicked MakesliceLen, w).
Proof.
  intros Hn. rewrite doReduce_run. unfold run. by rewrite decide_True.
Qed.

(** X8.  When the shards hold records and the output path can be opened,
    the values passed to the reduce function, all calls together, are the
    values of the records of the shards, each as many times as it occurs:
    no value is lost and none is passed twice. *)
Theorem values_are_conserved (w : World) (shards : list (list KeyValue)) :
  nMap = Z.of_nat (length shards) →
  holds (fs w) shards →
  outFile ∉ unwritable (fs w) →
  ∃ (w' : World) (cs : list (string * list string)),
    doReduce w = (Returned (), w') ∧
    calls w' = calls w ++ cs ∧
    concat (cs.*2) ≡ₚ Value <$> concat shards.
Proof.
  intros Hn Hs Hw.
  eexists _, (reduce_calls (concat shards)). split; [|split].
  - apply doReduce_records; [done|by apply holds_begins_with|done].
  - done.
  - unfold reduce_calls. rewrite <- list_fmap_compose.
    apply values_partition; [apply NoDup_keys_of|].
    intros r Hr. apply elem_of_keys_of. by apply list_elem_of_fmap_2.
Qed.


(** X10.  When the shards hold no record at all, a first run creates the
    output file, or leaves it as it finds it, and calls nothing; a second
    run changes nothing. *)
Theorem rerun_without_records (w : World) (shards : list (list KeyValue)) :
  nMap = Z.of_nat (length shards) →
  holds (fs w) shards →
  concat shards = [] →
  outFile ∉ unwritable (fs w) →
  ∃ w1 : World,
    doReduce w = (Returned (), w1) ∧
    doReduce w1 = (Returned (), w1) ∧
    calls w1 = calls w ∧
    content (fs w1) outFile = content (fs w) outFile.
Proof.
  intros Hn Hs Hnil Hw.
  pose proof (doReduce_records reduceName jobName reduceTask outFile nMap
                reduceF w shards Hn (holds_begins_with _ _ _ _ _ Hs) Hw) as H1.
  rewrite Hnil in H1. change (reduced []) with (@nil KeyValue) in H1.
  change (reduce_calls []) with (@nil (string * list string)) in H1.
  set (w1 := appended w [] []) in *.
  assert (Hc1 : content (fs w1) outFile = content (fs w) outFile).
  { unfold content at 1, w1. rewrite content_appended. simpl.
    by rewrite app_nil_r. }
  assert (Hs1 : holds (fs w1) shards).
  { intros i recs Hi. pose proof (Hs i recs Hi) as Hf. rewrite <- Hf.
    unfold_shard_file_all. unfold open_rdonly, w1 in *. simpl.
    destruct (decide (_ ∈ unreadable (fs w))) as [|Hr]; [done|].
    destruct (decide (shard_name reduceName jobName reduceTask i = outFile))
      as [Heq|Hne].
    2:{ by rewrite lookup_insert_ne. }
    rewrite Heq in Hf |- *. rewrite lookup_insert_eq, app_nil_r.
    unfold content. by rewrite Hf. }
  pose proof (doReduce_records reduceName jobName reduceTask outFile nMap
                reduceF w1 shards Hn (holds_begins_with _ _ _ _ _ Hs1) Hw) as H2.
  rewrite Hnil in H2. change (reduced []) with (@nil KeyValue) in H2.
  change (reduce_calls []) with (@nil (string * list string)) in H2.
  exists w1. split; [exact H1|]. split; [|split].
  - rewrite H2. f_equal. unfold_appended. rewrite Hc1.
    unfold w1. unfold_appended. simpl.
    by rewrite !app_nil_r, insert_insert_eq.
  - unfold w1. simpl. by rewrite app_nil_r.
  - exact Hc1.
Qed.

(** X11.  An object without a [Value] field is grouped with the value of the
    object decoded before it in the same shard, as if it carried that
    value; at the start of a shard it is grouped with the empty string. *)
Theorem missing_value_is_the_previous_one
  (recs : list KeyValue) (r : KeyValue) (k : string) (rest : list entry)
  (kvs : Groups) :
  (∀ kv : option KeyValue,
     decode_loop
       ((encode <$> (recs ++ [r])) ++ JObject (Some k) None :: rest) kv kvs =
     decode_loop
       ((encode <$> (recs ++ [r; mkKeyValue k (Value r)])) ++ rest) kv kvs) ∧
  decode_loop (JObject (Some k) None :: rest) None kvs =
  decode_loop (encode (mkKeyValue k "") :: rest) None kvs.
Proof.
  split; [|done]. intros kv.
  rewrite !decode_loop_after_records.
  replace (recs ++ [r; mkKeyValue k (Value r)])
    with ((recs ++ [r]) ++ [mkKeyValue k (Value r)])
    by (by rewrite <- app_assoc).
  rewrite !last_snoc, (group_app kvs (recs ++ [r])). done.
Qed.

End further.

Section two_jobs.

Variable reduceName : string → Z → Z → string.
Context {range : MapRange}.
Variable reduceF : string → list string → string.
Variables jobName1 jobName2 : string.
Variables reduceTask1 reduceTask2 : Z.
Variables outFile1 outFile2 : string.
Variables nMap1 nMap2 : Z.

Lemma reduced_perm (recs recs' : list KeyValue) :
  (∀ (k : string) (vs vs' : list string),
     vs ≡ₚ vs' → reduceF k vs = reduceF k vs') →
  recs ≡ₚ recs' → reduced reduceF recs = reduced reduceF recs'.
Proof.
  intros Hf Hp. unfold reduced. rewrite (keys_of_perm recs recs' Hp).
  apply list_fmap_ext. intros _ k _. f_equal. by apply Hf, values_of_perm.
Qed.

(** X12.  The output depends on the shards only through their records taken
    shard after shard: two jobs, of any numbers of map tasks, whose shards
    hold the same records in this order append the same records and make
    the same calls.  A shard without a record counts for nothing. *)
Theorem only_the_concatenation_matters
  (w1 w2 : World) (shards1 shards2 : list (list KeyValue)) :
  nMap1 = Z.of_nat (length shards1) →
  nMap2 = Z.of_nat (length shards2) →
  holds reduceName jobName1 reduceTask1 (fs w1) shards1 →
  holds reduceName jobName2 reduceTask2 (fs w2) shards2 →
  concat shards1 = concat shards2 →
  outFile1 ∉ unwritable (fs w1) →
  outFile2 ∉ unwritable (fs w2) →
  ∃ (out : list KeyValue) (cs : list (string * list string)),
    doReduce reduceName jobName1 reduceTask1 outFile1 nMap1 reduceF w1 =
      (Returned (), appended outFile1 w1 out cs) ∧
    doReduce reduceName jobName2 reduceTask2 outFile2 nMap2 reduceF w2 =
      (Returned (), appended outFile2 w2 out cs).
Proof.
  intros Hn1 Hn2 Hs1 Hs2 Hcat Hw1 Hw2.
  exists (reduced reduceF (concat shards1)), (reduce_calls (concat shards1)).
  split.
  - apply doReduce_records; [done|by apply holds_begins_with|done].
  - rewrite Hcat.
    apply doReduce_records; [done|by apply holds_begins_with|done].
Qed.

(** X13.  With a reduce function that does not depend on the order of the
    values, two jobs whose shards hold the same records, in any order and
    in any distribution over the shards, append the same records. *)
Theorem order_of_records_is_immaterial
  (w1 w2 : World) (shards1 shards2 : list (list KeyValue)) :
  (∀ (k : string) (vs vs' : list string),
     vs ≡ₚ vs' → reduceF k vs = reduceF k vs') →
  nMap1 = Z.of_nat (length shards1) →
  nMap2 = Z.of_nat (length shards2) →
  holds reduceName jobName1 reduceTask1 (fs w1) shards1 →
  holds reduceName jobName2 reduceTask2 (fs w2) shards2 →
  concat shards1 ≡ₚ concat shards2 →
  outFile1 ∉ unwritable (fs w1) →
  outFile2 ∉ unwritable (fs w2) →
  ∃ (out : list KeyValue) (cs1 cs2 : list (string * list string)),
    doReduce reduceName jobName1 reduceTask1 outFile1 nMap1 reduceF w1 =
      (Returned (), appended outFile1 w1 out cs1) ∧
    doReduce reduceName jobName2 reduceTask2 outFile2 nMap2 reduceF w2 =
      (Returned (), appended outFile2 w2 out cs2).
Proof.
  intros Hf Hn1 Hn2 Hs1 Hs2 Hp Hw1 Hw2.
  exists (reduced reduceF (concat shards1)),
    (reduce_calls (concat shards1)), (reduce_calls (concat shards2)).
  split.
  - apply doReduce_records; [done|by apply holds_begins_with|done].
  - rewrite (reduced_perm _ _ Hf Hp).
    apply doReduce_records; [done|by apply holds_begins_with|done].
Qed.

End two_jobs.

(** The further properties at concrete runs. *)

Lemma world_split_holds :
  holds mrtmp_name "split" 0 (fs world_split) [shard0; []; shard1].
Proof.
  intros [|[|[|i]]] recs Hi; simpl in Hi; inversion Hi; subst; by vm_compute.
Qed.

Lemma world_swapped_holds :
  holds mrtmp_name "swap" 0 (fs world_swapped) [shard1; shard0].
Proof.
  intros [|[|i]] recs Hi; simpl in Hi; inversion Hi; subst; by vm_compute.
Qed.

Lemma world_empty_holds :
  holds mrtmp_name "none" 0 (fs world_empty) [[]; []].
Proof.
  intros [|[|i]] recs Hi; simpl in Hi; inversion Hi; subst; by vm_compute.
Qed.

Lemma sum_as_text_perm (k : string) (vs vs' : list string) :
  vs ≡ₚ vs' → sum_as_text k vs = sum_as_text k vs'.
Proof.
  intros Hp. unfold sum_as_text. f_equal.
  induction Hp as [|v vs vs' _ IH|v v' vs|vs1 vs2 vs3 _ IH1 _ IH2];
    rewrite ?fmap_cons; cbn [foldr].
  - done.
  - by rewrite IH.
  - lia.
  - by rewrite IH1.
Qed.

Lemma panic_leaves_the_world_witness :
  (run_A world_locked).2 = world_locked.
Proof.
  apply (@panic_leaves_the_world mrtmp_name range_forward "job" 0 "out" 2
           sum_as_text world_locked (FailedToOpen "out")).
  by vm_compute.
Defined.

Lemma null_in_a_shard_panics_witness :
  run_A world_null = (Panicked NilDereference, world_null).
Proof.
  apply (@null_in_a_shard_panics mrtmp_name range_forward "job" 0 "out" 2
           sum_as_text world_null 1 [JNull]).
  - intros [|[|j]] Hj; [vm_compute; eauto..|lia].
  - lia.
  - by vm_compute.
  - simpl. left.
Defined.

Lemma negative_nMap_panics_witness :
  @doReduce mrtmp_name range_forward "job" 0 "out" (-1) sum_as_text world_A =
  (Panicked MakesliceLen, world_A).
Proof.
  apply (@negative_nMap_panics mrtmp_name range_forward "job" 0 "out" (-1)
           sum_as_text world_A).
  lia.
Defined.

Lemma values_are_conserved_witness :
  ∃ (w' : World) (cs : list (string * list string)),
    run_A world_A = (Returned (), w') ∧
    calls w' = calls world_A ++ cs ∧
    concat (cs.*2) ≡ₚ Value <$> concat [shard0; shard1].
Proof.
  apply (@values_are_conserved mrtmp_name range_forward "job" 0 "out" 2
           sum_as_text world_A [shard0; shard1]).
  - reflexivity.
  - exact world_A_holds.
  - apply out_writable.
Defined.


Lemma rerun_without_records_witness :
  ∃ w1 : World,
    @doReduce mrtmp_name range_forward "none" 0 "out" 2 sum_as_text
      world_empty = (Returned (), w1) ∧
    @doReduce mrtmp_name range_forward "none" 0 "out" 2 sum_as_text w1 =
      (Returned (), w1) ∧
    calls w1 = calls world_empty ∧
    content (fs w1) "out" = content (fs world_empty) "out".
Proof.
  apply (@rerun_without_records mrtmp_name range_forward "none" 0 "out" 2
           sum_as_text world_empty [[]; []]).
  - reflexivity.
  - exact world_empty_holds.
  - reflexivity.
  - apply out_writable.
Defined.

Lemma only_the_concatenation_matters_witness :
  ∃ (out : list KeyValue) (cs : list (string * list string)),
    @doReduce mrtmp_name range_forward "job" 0 "out" 2 sum_as_text world_A =
      (Returned (), appended "out" world_A out cs) ∧
    @doReduce mrtmp_name range_forward "split" 0 "out" 3 sum_as_text
      world_split = (Returned (), appended "out" world_split out cs).
Proof.
  apply (@only_the_concatenation_matters mrtmp_name range_forward sum_as_text
           "job" "split" 0 0 "out" "out" 2 3 world_A world_split
           [shard0; shard1] [shard0; []; shard1]).
  - reflexivity.
  - reflexivity.
  - exact world_A_holds.
  - exact world_split_holds.
  - reflexivity.
  - apply out_writable.
  - apply out_writable.
Defined.

Lemma order_of_records_is_immaterial_witness :
  ∃ (out : list KeyValue) (cs1 cs2 : list (string * list string)),
    @doReduce mrtmp_name range_forward "job" 0 "out" 2 sum_as_text world_A =
      (Returned (), appended "out" world_A out cs1) ∧
    @doReduce mrtmp_name range_forward "swap" 0 "out" 2 sum_as_text
      world_swapped = (Returned (), appended "out" world_swapped out cs2).
Proof.
  apply (@order_of_records_is_immaterial mrtmp_name range_forward sum_as_text
           "job" "swap" 0 0 "out" "out" 2 2 world_A world_swapped
           [shard0; shard1] [shard1; shard0]).
  - exact sum_as_text_perm.
  - reflexivity.
  - reflexivity.
  - exact world_A_holds.
  - exact world_swapped_holds.
  - apply Permutation_app_comm.
  - apply out_writable.
  - apply out_writable.
Defined.
